(** * sprite-decoder.js: the run-length varint codec and the bitplane stub

    A shallow embedding of [src/sprite-decoder.js].  The script works on
    JavaScript numbers and strings; the fragment of the language it uses
    is modelled in [Module JS], the three functions of the script follow,
    then the reference definitions of the specification and the theorems
    relating the two.

    Numbers.  Every number the script computes from an integer argument
    is an integer-valued double, so a number is a [Z] or [NaN].  The
    sums of [rle_decode] are rounded as doubles are ([JS.add]); the
    additions and subtractions of [rle_encode] are written on the
    integers, which is exact below 2^53, and its theorems stay below
    2^31.  The 32-bit conversions of [<<] and [|] are written out. *)

From Stdlib Require Import ZArith List String Ascii Bool Lia DecimalString.
Import ListNotations.

Open Scope string_scope.
Open Scope Z_scope.

(* ================================================================== *)
(** ** The JavaScript fragment used by the script *)

Module JS.

(** A number: an integer or NaN (the only non-integer the script can
    meet, through [parseInt]). *)
Inductive number : Type :=
| Num (z : Z)
| NaN.

(** The result of a function call. *)
Inductive value : Type :=
| Undefined
| Number (n : number)
| Str (s : string).

(** The double nearest to the integer [z], ties to the even
    significand: every integer up to 2^53 in magnitude is a double;
    beyond, the 53 leading bits are kept and the rest is rounded.
    (Infinity is left out: no sum of the script leaves the finite
    range on a finite argument.) *)
Definition round_double (z : Z) : Z :=
  let a := Z.abs z in
  if a <=? 2 ^ 53 then z
  else
    let e := Z.log2 a - 52 in
    let q := Z.shiftr a e in
    let r := a mod 2 ^ e in
    let half := 2 ^ (e - 1) in
    let q :=
      if r <? half then q
      else if half <? r then q + 1
      else if Z.even q then q else q + 1 in
    Z.sgn z * (q * 2 ^ e).

(** [a + b] on numbers: the exact sum, rounded to a double. *)
Definition add (a b : number) : number :=
  match a, b with
  | Num x, Num y => Num (round_double (x + y))
  | _, _ => NaN
  end.

(** Digits of [p] in base two, most significant first, put in front
    of [acc]. *)
Fixpoint pos_digits (p : positive) (acc : string) : string :=
  match p with
  | xH => String "1" acc
  | xO q => pos_digits q (String "0" acc)
  | xI q => pos_digits q (String "1" acc)
  end.

(** [z.toString(2)] for an integer [z]: no leading zeros, ["0"] for
    zero, a leading ["-"] for a negative number. *)
Definition toString2 (z : Z) : string :=
  match z with
  | Z0 => "0"
  | Zpos p => pos_digits p ""
  | Zneg p => String "-" (pos_digits p "")
  end.

(** [s.charAt(i)]: the one-character string at index [i], the empty
    string when [i] is out of range. *)
Definition charAt (s : string) (i : nat) : string :=
  match String.get i s with
  | Some c => String c ""
  | None => ""
  end.

Definition decimal_digit (c : ascii) : option Z :=
  let n := Z.of_nat (nat_of_ascii c) in
  if (48 <=? n) && (n <=? 57) then Some (n - 48) else None.

Fixpoint decimal_value (s : string) (acc : Z) : option Z :=
  match s with
  | "" => Some acc
  | String c r =>
      match decimal_digit c with
      | Some d => decimal_value r (10 * acc + d)
      | None => None
      end
  end.

(** ToNumber on a string, for the strings [charAt] can yield here:
    the empty string is 0, a run of decimal digits is its value, any
    other text (a lone ["-"]) is NaN. *)
Definition StringToNumber (s : string) : number :=
  match s with
  | "" => Num 0
  | _ => match decimal_value s 0 with
         | Some v => Num v
         | None => NaN
         end
  end.

(** [s == z], a string compared loosely with a number: the string is
    converted with ToNumber; NaN equals nothing. *)
Definition loose_eq (s : string) (z : Z) : bool :=
  match StringToNumber s with
  | Num v => v =? z
  | NaN => false
  end.

(** [s == t] on two strings. *)
Definition string_eq (s t : string) : bool := String.eqb s t.

(** ToBoolean on a string: only the empty string is falsy. *)
Definition truthy (s : string) : bool :=
  match s with
  | "" => false
  | _ => true
  end.

Definition binary_digit (c : ascii) : option Z :=
  if Ascii.eqb c "0" then Some 0
  else if Ascii.eqb c "1" then Some 1
  else None.

(** The longest prefix of radix-2 digits of [s], as a value; [acc] is
    [None] as long as no digit has been read. *)
Fixpoint parse_digits (s : string) (acc : option Z) : option Z :=
  match s with
  | "" => acc
  | String c r =>
      match binary_digit c with
      | Some d =>
          parse_digits r
            (Some (2 * match acc with Some a => a | None => 0 end + d))
      | None => acc
      end
  end.

Definition digits_number (sign : Z) (s : string) : number :=
  match parse_digits s None with
  | Some v => Num (sign * v)
  | None => NaN
  end.

(** [parseInt(s, 2)]: an optional sign, then the longest prefix of
    binary digits; NaN when there is no digit.  (Leading white space
    does not occur in the strings of this script.) *)
Definition parseInt2 (s : string) : number :=
  match s with
  | String c r =>
      if Ascii.eqb c "-" then digits_number (-1) r
      else if Ascii.eqb c "+" then digits_number 1 r
      else digits_number 1 s
  | "" => NaN
  end.

(** ToInt32: reduction modulo 2^32 into [-2^31, 2^31). *)
Definition ToInt32 (z : Z) : Z :=
  let m := z mod 2 ^ 32 in
  if 2 ^ 31 <=? m then m - 2 ^ 32 else m.

(** [a << b]: both operands to 32 bits, the shift count taken modulo
    32, the product wrapped to a signed 32-bit integer. *)
Definition shl (a b : Z) : Z :=
  ToInt32 (ToInt32 a * 2 ^ ((b mod 2 ^ 32) mod 32)).

(** [a | b]: bitwise or of the two operands as signed 32-bit
    integers. *)
Definition bor (a b : Z) : Z :=
  Z.lor (ToInt32 a) (ToInt32 b).

(** [Math.pow(2, e)] for an integer exponent [e >= 0]. *)
Definition pow2 (e : Z) : Z := 2 ^ e.

Definition strlen (s : string) : Z := Z.of_nat (String.length s).

End JS.

(* ================================================================== *)
(** ** The script *)

(** [rle_encode], lines 84-101. *)
Definition rle_encode (n : Z) : Z :=
  let n := n + 1 in
  let v := n - JS.pow2 (JS.strlen (JS.toString2 n) - 1) in
  let l := n - v - 2 in
  let encoded := JS.bor (JS.shl l (JS.strlen (JS.toString2 l))) v in
  encoded.

(** First loop of [rle_decode], lines 118-122: [steps] iterations are
    left before [i] reaches [strN.length]; the loop copies characters
    into [l] and breaks after the first one that equals 0. *)
Fixpoint prefix_loop (strN : string) (steps i : nat) (l : string) : string :=
  match steps with
  | O => l
  | S steps' =>
      let charAt := JS.charAt strN i in
      let l := l ++ charAt in
      if JS.loose_eq charAt 0 then l
      else prefix_loop strN steps' (S i) l
  end.

(** Second loop of [rle_decode], lines 124-127: [steps] iterations are
    left before [i] reaches [l.length * 2]. *)
Fixpoint residual_loop (strN : string) (steps i : nat) (n : string) : string :=
  match steps with
  | O => n
  | S steps' =>
      let charAt := JS.charAt strN i in
      residual_loop strN steps' (S i) (n ++ charAt)
  end.

(** [rle_decode], lines 115-133. *)
Definition rle_decode (encoded : Z) : JS.number :=
  let strN := JS.toString2 encoded in
  let l := prefix_loop strN (String.length strN) 0 "" in
  let n :=
    residual_loop strN (String.length l * 2 - String.length l)
      (String.length l) "" in
  let n := if negb (JS.truthy n) then "0" else n in
  let decoded := JS.add (JS.add (JS.parseInt2 l) (JS.parseInt2 n)) (JS.Num 1) in
  decoded.

(** The local variables of [decompress_bp]. *)
Record bp_locals : Type := {
  isRle : bool;
  decompressed : string
}.

(** The loop of [decompress_bp], lines 148-152: the only statement of
    its body is an [if] with an empty branch. *)
Fixpoint bp_loop (bitplane : string) (steps i : nat) (st : bp_locals)
  : bp_locals :=
  match steps with
  | O => st
  | S steps' =>
      let st := if isRle st then st else st in
      bp_loop bitplane steps' (S i) st
  end.

(** The locals of [decompress_bp] when its loop is left. *)
Definition decompress_bp_locals (bitplane : string) : bp_locals :=
  let st := {| isRle := JS.string_eq (JS.charAt bitplane 0) "0";
               decompressed := "" |} in
  bp_loop bitplane (String.length bitplane - 1) 1 st.

(** [decompress_bp], lines 145-153: the function body ends without a
    [return], so the call evaluates to [undefined]. *)
Definition decompress_bp (bitplane : string) : JS.value :=
  let _ := decompress_bp_locals bitplane in
  JS.Undefined.

(** The binary digits of the literals [compressed] and [decompressed],
    lines 155-156: a packet stream and the plane it stands for. *)
Definition compressed_sample : string :=
  "01001101100110100011111110100011011110110101000".

Definition decompressed_sample : string :=
  "00000000101100000000000000000000000111111101000010111101101010".

(* ================================================================== *)
(** ** The self-checks of the script *)

(** What the script leaves on the console. *)
Inductive console_event : Type :=
| AssertionFailed (message : string)
| Logged (message : string).

(** [a.toString(2)] on a number. *)
Definition number_toString2 (a : JS.number) : string :=
  match a with
  | JS.Num z => JS.toString2 z
  | JS.NaN => "NaN"
  end.

(** A number inside a template literal: its decimal text. *)
Definition number_toString (a : JS.number) : string :=
  match a with
  | JS.Num z => NilZero.string_of_int (Z.to_int z)
  | JS.NaN => "NaN"
  end.

(** [a === b] on numbers: NaN equals nothing, itself included. *)
Definition strict_eq (a b : JS.number) : bool :=
  match a, b with
  | JS.Num x, JS.Num y => x =? y
  | _, _ => false
  end.

(** [assertBinsSame], lines 80-82: [console.assert] writes the message
    when its condition is false and nothing otherwise. *)
Definition assertBinsSame (a b : JS.number) (console : list console_event)
  : list console_event :=
  if strict_eq a b then console
  else
    (console
     ++ [AssertionFailed
           (number_toString2 a ++ " (" ++ number_toString a ++ ") === "
            ++ number_toString2 b ++ " (" ++ number_toString b ++ ")")])%list.

(** The statements the script runs when it is loaded: the assertions of
    lines 103-106 and 135-138 and the final [console.log]; the two
    [let] of lines 155-156 write nothing. *)
Definition script (console : list console_event) : list console_event :=
  let console := assertBinsSame (JS.Num (rle_encode 1)) (JS.Num 0) console in
  let console := assertBinsSame (JS.Num (rle_encode 2)) (JS.Num 1) console in
  let console := assertBinsSame (JS.Num (rle_encode 45)) (JS.Num 974) console in
  let console :=
    assertBinsSame (JS.Num (rle_encode 63282)) (JS.Num 1073706803) console in
  let console := assertBinsSame (rle_decode 974) (JS.Num 45) console in
  let console := assertBinsSame (rle_decode 62399) (JS.Num 45) console in
  let console := assertBinsSame (rle_decode 1) (JS.Num 2) console in
  let console := assertBinsSame (rle_decode 0) (JS.Num 1) console in
  (console ++ [Logged "finished script"])%list.

(* ================================================================== *)
(** ** Bit strings

    The vocabulary of the specification: a bit string is a list of
    booleans, most significant bit first. *)

Module Bits.

Definition digit (b : bool) : ascii := if b then "1"%char else "0"%char.

(** The text of a bit string. *)
Fixpoint bits_string (bs : list bool) : string :=
  match bs with
  | [] => ""
  | b :: r => String (digit b) (bits_string r)
  end.

(** value(bs): the number a bit string denotes; the empty string
    denotes 0. *)
Definition bits_value (bs : list bool) : Z :=
  fold_left (fun acc b => 2 * acc + Z.b2z b) bs 0.

Fixpoint pos_bits (p : positive) : list bool :=
  match p with
  | xH => [true]
  | xO q => pos_bits q ++ [false]
  | xI q => pos_bits q ++ [true]
  end.

(** The binary representation of a non-negative integer, without
    leading zeros ([0] is the single bit 0). *)
Definition binary (z : Z) : list bool :=
  match z with
  | Zpos p => pos_bits p
  | _ => [false]
  end.

(** The bits read while they equal 1, with the terminating 0 bit when
    there is one. *)
Fixpoint unary_prefix (bs : list bool) : list bool :=
  match bs with
  | [] => []
  | true :: r => true :: unary_prefix r
  | false :: _ => [false]
  end.

(** The bits that follow a k-bit prefix, at most k of them. *)
Definition residual (bs : list bool) : list bool :=
  let k := List.length (unary_prefix bs) in
  firstn k (skipn k bs).


End Bits.

(** The reference definitions of the specification. *)
Module Reference.

(** Encoder, steps 1 to 6: x = n + 1, k = bit length of x minus one,
    v = x - 2^k, l = 2^k - 2; the codeword is l on k bits followed by
    v on k bits. *)
Definition encode (n : Z) : Z :=
  let x := n + 1 in
  let k := Z.log2 x in
  let v := x - 2 ^ k in
  let l := 2 ^ k - 2 in
  l * 2 ^ k + v.

(** Step 6 as bits, for the k low bits [vb] of x: l is k-1 ones and a
    zero, then come the k bits of v. *)
Definition codeword_bits (vb : list bool) : list bool :=
  repeat true (List.length vb - 1) ++ false :: vb.

(** Decoder, steps 1 to 3, on the bits available. *)
Definition decode (bs : list bool) : Z :=
  Bits.bits_value (Bits.unary_prefix bs) + Bits.bits_value (Bits.residual bs) + 1.

(** The codeword followed by the bits [t], as a number. *)
Definition followed_by (codeword : Z) (t : list bool) : Z :=
  codeword * 2 ^ Z.of_nat (List.length t) + Bits.bits_value t.

End Reference.

(* ================================================================== *)
(** ** The sprite header *)

Module SpriteDecoder.

Inductive DecodeError : Type :=
| MalformedVarint
| PlaneLengthMismatch
| InvalidDimensions
| CursorExhausted.

Inductive result (A : Type) : Type :=
| Ok (a : A)
| Error (e : DecodeError).
Arguments Ok {A} a.
Arguments Error {A} e.

Definition valid_dimension (d : Z) : bool := (1 <=? d) && (d <=? 7).

(** Modelled from the spec: the orchestrator [decodeSprite] of section
    4.5, which the script does not contain (its header comment only
    describes the size byte).  Step 1: one byte is read, its top
    nibble is the tile height and its bottom nibble the tile width,
    each in 1..7; anything else is the fatal error InvalidDimensions. *)
Definition read_dimensions (header : Z) : result (Z * Z) :=
  let tileHeight := Z.shiftr header 4 in
  let tileWidth := Z.land header 15 in
  if valid_dimension tileHeight && valid_dimension tileWidth
  then Ok (tileHeight, tileWidth)
  else Error InvalidDimensions.

Section Orchestrator.

(** The pixel grid, and steps 2 to 8 of the orchestrator (plane
    order, packet streams, combination, assembly) run on the bytes
    that follow the header. *)
Variable grid : Type.
Variable decode_planes : Z -> Z -> list Z -> result grid.

(** Modelled from the spec: [decodeSprite] of sections 4.5 and 6, a
    state machine that stops at the first error and returns no
    partial output. *)
Definition decodeSprite (input : list Z) : result grid :=
  match input with
  | [] => Error CursorExhausted
  | header :: rest =>
      match read_dimensions header with
      | Error e => Error e
      | Ok (tileHeight, tileWidth) => decode_planes tileHeight tileWidth rest
      end
  end.

End Orchestrator.

End SpriteDecoder.

(* ================================================================== *)
(** ** Strings of bits *)

Section BitStrings.

Import Bits.

Lemma string_app_nil (s : string) : s ++ "" = s.
Proof. induction s as [|c s IH]; simpl; [reflexivity | now rewrite IH]. Qed.

Lemma string_app_assoc (a b c : string) : (a ++ b) ++ c = a ++ (b ++ c).
Proof. induction a as [|x a IH]; simpl; [reflexivity | now rewrite IH]. Qed.

Lemma bits_string_app (a b : list bool) :
  bits_string (a ++ b) = bits_string a ++ bits_string b.
Proof. induction a as [|x a IH]; simpl; [reflexivity | now rewrite IH]. Qed.

Lemma bits_string_length (bs : list bool) :
  String.length (bits_string bs) = List.length bs.
Proof. induction bs as [|b bs IH]; simpl; [reflexivity | now rewrite IH]. Qed.

Lemma pos_digits_bits (p : positive) (acc : string) :
  JS.pos_digits p acc = bits_string (pos_bits p) ++ acc.
Proof.
  revert acc; induction p as [q IH|q IH|]; intro acc; simpl.
  - rewrite IH, bits_string_app, string_app_assoc. reflexivity.
  - rewrite IH, bits_string_app, string_app_assoc. reflexivity.
  - reflexivity.
Qed.

(** [toString(2)] of a non-negative integer is the text of its binary
    representation. *)
Lemma toString2_binary (e : Z) :
  0 <= e -> JS.toString2 e = bits_string (binary e).
Proof.
  destruct e as [|p|p]; intro H; simpl.
  - reflexivity.
  - now rewrite pos_digits_bits, string_app_nil.
  - lia.
Qed.

Lemma charAt_bits (bs : list bool) (i : nat) :
  JS.charAt (bits_string bs) i = bits_string (firstn 1 (skipn i bs)).
Proof.
  unfold JS.charAt.
  revert i; induction bs as [|b bs IH]; intro i.
  - destruct i; reflexivity.
  - destruct i as [|i]; simpl.
    + reflexivity.
    + apply IH.
Qed.

Lemma loose_eq_digit (b : bool) :
  JS.loose_eq (String (digit b) "") 0 = negb b.
Proof. destruct b; reflexivity. Qed.

Lemma skipn_app_cons (pre : list bool) (b : bool) (r : list bool) :
  skipn (List.length pre) (pre ++ b :: r) = b :: r.
Proof. induction pre as [|x pre IH]; simpl; [reflexivity | exact IH]. Qed.

(** The first loop of [rle_decode] leaves the unary prefix in [l]. *)
Lemma prefix_loop_bits (bs pre : list bool) (acc : string) :
  prefix_loop (bits_string (pre ++ bs)) (List.length bs) (List.length pre) acc
  = acc ++ bits_string (unary_prefix bs).
Proof.
  revert pre acc; induction bs as [|b bs IH]; intros pre acc; simpl.
  - now rewrite string_app_nil.
  - rewrite charAt_bits, skipn_app_cons. simpl firstn. simpl bits_string.
    rewrite loose_eq_digit. destruct b; simpl.
    + replace (pre ++ true :: bs)%list with ((pre ++ [true]) ++ bs)%list
        by now rewrite <- app_assoc.
      replace (S (List.length pre)) with (List.length (pre ++ [true])%list)
        by (rewrite length_app; simpl; lia).
      rewrite IH, string_app_assoc. reflexivity.
    + reflexivity.
Qed.

Lemma firstn_S_skipn (k i : nat) (bs : list bool) :
  firstn (S k) (skipn i bs)
  = (firstn 1 (skipn i bs) ++ firstn k (skipn (S i) bs))%list.
Proof.
  revert i; induction bs as [|b bs IH]; intro i.
  - destruct i; simpl; now rewrite ?firstn_nil.
  - destruct i as [|i].
    + reflexivity.
    + change (skipn (S i) (b :: bs)) with (skipn i bs).
      change (skipn (S (S i)) (b :: bs)) with (skipn (S i) bs).
      apply IH.
Qed.

(** The second loop of [rle_decode] appends the [steps] characters
    from index [i] on, as far as they exist. *)
Lemma residual_loop_bits (bs : list bool) (steps i : nat) (acc : string) :
  residual_loop (bits_string bs) steps i acc
  = acc ++ bits_string (firstn steps (skipn i bs)).
Proof.
  revert i acc; induction steps as [|k IH]; intros i acc.
  - simpl. now rewrite string_app_nil.
  - cbn [residual_loop]. rewrite IH, charAt_bits, (firstn_S_skipn k i).
    rewrite bits_string_app, string_app_assoc. reflexivity.
Qed.

Lemma parse_digits_bits (bs : list bool) (a : Z) :
  JS.parse_digits (bits_string bs) (Some a)
  = Some (fold_left (fun acc b => 2 * acc + Z.b2z b) bs a).
Proof.
  revert a; induction bs as [|b bs IH]; intro a; simpl.
  - reflexivity.
  - destruct b; simpl; apply IH.
Qed.

(** [parseInt(_, 2)] reads a non-empty bit string as its value. *)
Lemma parseInt2_bits (bs : list bool) :
  bs <> [] -> JS.parseInt2 (bits_string bs) = JS.Num (bits_value bs).
Proof.
  destruct bs as [|b bs]; [congruence | intros _].
  assert (Hsign : JS.parseInt2 (bits_string (b :: bs))
                  = JS.digits_number 1 (bits_string (b :: bs)))
    by (destruct b; reflexivity).
  rewrite Hsign. unfold JS.digits_number.
  cbn [bits_string JS.parse_digits].
  replace (JS.binary_digit (digit b)) with (Some (Z.b2z b))
    by (destruct b; reflexivity).
  rewrite parse_digits_bits. unfold bits_value. cbn [fold_left].
  now rewrite Z.mul_1_l.
Qed.

Lemma truthy_bits (bs : list bool) :
  JS.truthy (bits_string bs) = match bs with [] => false | _ => true end.
Proof. destruct bs; reflexivity. Qed.

Lemma unary_prefix_nonempty (bs : list bool) :
  bs <> [] -> unary_prefix bs <> [].
Proof. destruct bs as [|[] bs]; simpl; congruence. Qed.

Lemma pos_bits_nonempty (p : positive) : pos_bits p <> [].
Proof.
  destruct p; simpl; try congruence;
    intro H; apply app_eq_nil in H; destruct H; congruence.
Qed.


(** [rle_decode] on the text of a non-empty bit string adds the values
    of the prefix and of the residual bits available, and 1. *)
Lemma rle_decode_string (e : Z) (bs : list bool) :
  JS.toString2 e = bits_string bs -> bs <> [] ->
  rle_decode e
  = JS.add (JS.add (JS.Num (bits_value (unary_prefix bs)))
                   (JS.Num (bits_value (residual bs))))
           (JS.Num 1).
Proof.
  intros Hs Hne. unfold rle_decode. rewrite Hs.
  rewrite bits_string_length.
  pose proof (prefix_loop_bits bs [] "") as Hl.
  cbn [app List.length String.append] in Hl. rewrite Hl.
  rewrite bits_string_length.
  replace (List.length (unary_prefix bs) * 2 - List.length (unary_prefix bs))%nat
    with (List.length (unary_prefix bs)) by lia.
  rewrite residual_loop_bits. cbn [String.append].
  fold (residual bs). rewrite truthy_bits.
  rewrite (parseInt2_bits _ (unary_prefix_nonempty bs Hne)).
  destruct (residual bs) as [|r rs] eqn:Hr; cbn [negb].
  - reflexivity.
  - rewrite parseInt2_bits by congruence. reflexivity.
Qed.

End BitStrings.

(* ================================================================== *)
(** ** Values of bit strings *)

Section BitValues.

Import Bits.

Lemma bits_value_snoc (bs : list bool) (b : bool) :
  bits_value (bs ++ [b]) = 2 * bits_value bs + Z.b2z b.
Proof. unfold bits_value. now rewrite fold_left_app. Qed.

Lemma bits_value_app (a b : list bool) :
  bits_value (a ++ b)
  = bits_value a * 2 ^ Z.of_nat (List.length b) + bits_value b.
Proof.
  induction b as [|x b IH] using rev_ind.
  - rewrite app_nil_r. cbn. lia.
  - rewrite app_assoc, !bits_value_snoc, IH, length_app.
    cbn [List.length]. rewrite Nat2Z.inj_add, Z.pow_add_r by lia.
    change (2 ^ Z.of_nat 1) with 2. ring.
Qed.

Lemma bits_value_bound (bs : list bool) :
  0 <= bits_value bs < 2 ^ Z.of_nat (List.length bs).
Proof.
  induction bs as [|x bs IH] using rev_ind.
  - cbn. lia.
  - rewrite bits_value_snoc, length_app. cbn [List.length].
    rewrite Nat2Z.inj_add, Z.pow_add_r by lia.
    change (2 ^ Z.of_nat 1) with 2. destruct x; cbn [Z.b2z]; lia.
Qed.

Lemma bits_value_pos_bits (p : positive) : bits_value (pos_bits p) = Zpos p.
Proof.
  induction p as [q IH|q IH|]; cbn [pos_bits];
    rewrite ?bits_value_snoc, ?IH; cbn [Z.b2z]; try lia.
  reflexivity.
Qed.


Lemma pos_bits_head (p : positive) : exists vb, pos_bits p = true :: vb.
Proof.
  induction p as [q [vb IH]|q [vb IH]|]; cbn [pos_bits].
  - exists (vb ++ [true])%list. now rewrite IH.
  - exists (vb ++ [false])%list. now rewrite IH.
  - now exists [].
Qed.

(** A bit string that starts with a 1 is the binary representation of
    its value. *)
Lemma binary_bits_value (vb : list bool) :
  binary (bits_value (true :: vb)) = true :: vb.
Proof.
  induction vb as [|b vb IH] using rev_ind.
  - reflexivity.
  - change (true :: vb ++ [b])%list with ((true :: vb) ++ [b])%list.
    rewrite bits_value_snoc.
    destruct (bits_value (true :: vb)) as [|p|p];
      cbn [binary] in IH; try discriminate.
    destruct b; cbn [Z.b2z].
    + change (2 * Z.pos p + 1) with (Z.pos p~1). cbn [binary pos_bits].
      now rewrite IH.
    + rewrite Z.add_0_r. change (2 * Z.pos p) with (Z.pos p~0).
      cbn [binary pos_bits]. now rewrite IH.
Qed.

Lemma bits_value_ones_zero (j : nat) :
  bits_value (repeat true j ++ [false]) = 2 ^ (Z.of_nat j + 1) - 2.
Proof.
  induction j as [|j IH].
  - reflexivity.
  - change (repeat true (S j) ++ [false])%list
      with ([true] ++ (repeat true j ++ [false]))%list.
    rewrite bits_value_app, IH, length_app, repeat_length.
    cbn [List.length]. change (bits_value [true]) with 1.
    replace (Z.of_nat (j + 1)) with (Z.of_nat j + 1) by lia.
    replace (Z.of_nat (S j) + 1) with (Z.of_nat j + 1 + 1) by lia.
    rewrite (Z.pow_add_r 2 (Z.of_nat j + 1) 1) by lia.
    change (2 ^ 1) with 2. lia.
Qed.

Lemma binary_ones_zero (j : nat) :
  binary (2 ^ (Z.of_nat j + 1) - 2) = (repeat true j ++ [false])%list.
Proof.
  rewrite <- bits_value_ones_zero. destruct j as [|j].
  - reflexivity.
  - apply binary_bits_value.
Qed.

Lemma unary_prefix_ones (j : nat) (rest : list bool) :
  unary_prefix (repeat true j ++ false :: rest) = (repeat true j ++ [false])%list.
Proof. induction j as [|j IH]; cbn; [reflexivity | now rewrite IH]. Qed.

Lemma residual_ones (j : nat) (r t : list bool) :
  List.length r = S j ->
  residual (repeat true j ++ false :: r ++ t) = r.
Proof.
  intro Hr. unfold residual. rewrite unary_prefix_ones.
  replace (repeat true j ++ false :: r ++ t)%list
    with ((repeat true j ++ [false]) ++ (r ++ t))%list
    by (rewrite <- app_assoc; reflexivity).
  rewrite skipn_app, skipn_all, Nat.sub_diag. cbn [app skipn].
  rewrite length_app, repeat_length. cbn [List.length].
  replace (j + 1)%nat with (List.length r + 0)%nat by lia.
  rewrite firstn_app_2. cbn [firstn]. apply app_nil_r.
Qed.


Lemma unary_prefix_length (bs : list bool) :
  (List.length (unary_prefix bs) <= List.length bs)%nat.
Proof.
  induction bs as [|[] bs IH]; cbn; lia.
Qed.

Lemma bits_value_zeros (m : nat) (bs : list bool) :
  bits_value (repeat false m ++ bs) = bits_value bs.
Proof.
  induction m as [|m IH]; [reflexivity |].
  cbn [repeat app]. unfold bits_value in *. cbn [fold_left Z.b2z]. exact IH.
Qed.

Lemma reference_decode_pos (bs : list bool) : 1 <= Reference.decode bs.
Proof.
  unfold Reference.decode.
  pose proof (bits_value_bound (unary_prefix bs)).
  pose proof (bits_value_bound (residual bs)). lia.
Qed.

End BitValues.

(* ================================================================== *)
(** ** Sums of doubles *)

Section DoubleSums.

Import Bits.

Lemma round_double_exact (z : Z) :
  Z.abs z <= 2 ^ 53 -> JS.round_double z = z.
Proof.
  intro H. unfold JS.round_double. cbv zeta.
  destruct (Z.abs z <=? 2 ^ 53) eqn:E; [reflexivity |].
  apply Z.leb_gt in E. lia.
Qed.


Lemma add_exact (x y : Z) :
  Z.abs (x + y) <= 2 ^ 53 -> JS.add (JS.Num x) (JS.Num y) = JS.Num (x + y).
Proof. intro H. cbn [JS.add]. now rewrite round_double_exact. Qed.

(** The sum of line 130 is exact as long as it is at most 2^53. *)
Lemma decoded_sum_exact (L N : Z) :
  0 <= L -> 0 <= N -> L + N + 1 <= 2 ^ 53 ->
  JS.add (JS.add (JS.Num L) (JS.Num N)) (JS.Num 1) = JS.Num (L + N + 1).
Proof.
  intros HL HN H. rewrite (add_exact L N), add_exact; [reflexivity | lia | lia].
Qed.


Lemma unary_prefix_firstn (bs : list bool) :
  unary_prefix bs = firstn (List.length (unary_prefix bs)) bs.
Proof.
  induction bs as [|[] bs IH]; cbn [unary_prefix List.length firstn].
  - reflexivity.
  - now rewrite <- IH.
  - reflexivity.
Qed.

(** The decoded value is at most the input plus one. *)
Lemma reference_decode_le (bs : list bool) :
  Reference.decode bs <= bits_value bs + 1.
Proof.
  unfold Reference.decode, residual.
  pose proof (bits_value_app (firstn (List.length (unary_prefix bs)) bs)
                (skipn (List.length (unary_prefix bs)) bs)) as Hsplit.
  rewrite firstn_skipn, <- unary_prefix_firstn in Hsplit.
  set (rest := skipn (List.length (unary_prefix bs)) bs) in *.
  set (k := List.length (unary_prefix bs)) in *.
  pose proof (bits_value_bound (unary_prefix bs)).
  pose proof (bits_value_bound rest).
  pose proof (bits_value_app (firstn k rest) (skipn k rest)) as Hres.
  rewrite firstn_skipn in Hres.
  pose proof (bits_value_bound (firstn k rest)).
  pose proof (bits_value_bound (skipn k rest)).
  assert (0 < 2 ^ Z.of_nat (List.length (skipn k rest)))
    by (apply Z.pow_pos_nonneg; lia).
  assert (0 < 2 ^ Z.of_nat (List.length rest))
    by (apply Z.pow_pos_nonneg; lia).
  nia.
Qed.

Lemma rle_decode_string_exact (e : Z) (bs : list bool) :
  JS.toString2 e = bits_string bs -> bs <> [] ->
  Reference.decode bs <= 2 ^ 53 ->
  rle_decode e = JS.Num (Reference.decode bs).
Proof.
  intros Hs Hne Hb. rewrite (rle_decode_string e bs Hs Hne).
  apply decoded_sum_exact; [apply bits_value_bound | apply bits_value_bound |].
  exact Hb.
Qed.



End DoubleSums.

(* ================================================================== *)
(** ** The encoder within 32 bits *)

Section Encoder.

Import Bits.

Lemma ToInt32_small (z : Z) : 0 <= z < 2 ^ 31 -> JS.ToInt32 z = z.
Proof.
  intro H. unfold JS.ToInt32. rewrite Z.mod_small by lia.
  destruct (2 ^ 31 <=? z) eqn:E; [apply Z.leb_le in E; lia | reflexivity].
Qed.

Lemma testbit_above (v k n : Z) :
  0 <= v < 2 ^ k -> k <= n -> Z.testbit v n = false.
Proof.
  intros Hv Hn. destruct (Z.eq_dec v 0) as [->|Hnz].
  - apply Z.bits_0.
  - apply Z.bits_above_log2; [lia |].
    assert (Z.log2 v < k) by (apply Z.log2_lt_pow2; lia). lia.
Qed.

(** Or-ing a value below 2^k into a multiple of 2^k adds it. *)
Lemma lor_shifted (a k v : Z) :
  0 <= k -> 0 <= v < 2 ^ k -> Z.lor (a * 2 ^ k) v = a * 2 ^ k + v.
Proof.
  intros Hk Hv. rewrite <- Z.add_lor_land.
  replace (Z.land (a * 2 ^ k) v) with 0; [lia |].
  symmetry. apply Z.bits_inj'. intros n Hn.
  rewrite Z.land_spec, Z.bits_0, <- Z.shiftl_mul_pow2 by lia.
  destruct (Z.lt_ge_cases n k).
  - now rewrite Z.shiftl_spec_low.
  - rewrite (testbit_above v k n) by lia. apply andb_false_r.
Qed.

(** The shape of x = n + 1 for n >= 1: a leading 1 and k >= 1 more
    bits. *)
Lemma successor_bits (n : Z) :
  1 <= n ->
  exists vb, binary (n + 1) = true :: vb
             /\ (1 <= List.length vb)%nat
             /\ n + 1 = 2 ^ Z.of_nat (List.length vb) + bits_value vb.
Proof.
  intro Hn. destruct (n + 1) as [|p|p] eqn:Hx; try lia.
  destruct (pos_bits_head p) as [vb Hvb]. exists vb.
  assert (Hval : Z.pos p = 2 ^ Z.of_nat (List.length vb) + bits_value vb).
  { rewrite <- (bits_value_pos_bits p), Hvb.
    change (true :: vb) with ([true] ++ vb)%list.
    rewrite bits_value_app. change (bits_value [true]) with 1. lia. }
  repeat split; [exact Hvb | | exact Hval].
  destruct vb as [|b vb]; cbn [List.length]; [| lia].
  cbn in Hval. lia.
Qed.

Lemma pow2_length_le_15 (k : nat) (x : Z) :
  2 ^ Z.of_nat k <= x -> x < 2 ^ 16 -> (k <= 15)%nat.
Proof.
  intros Hlo Hhi.
  destruct (Nat.le_gt_cases k 15) as [H|H]; [exact H | exfalso].
  assert (2 ^ 16 <= 2 ^ Z.of_nat k) by (apply Z.pow_le_mono_r; lia). lia.
Qed.

Lemma codeword_bits_value (vb : list bool) :
  (1 <= List.length vb)%nat ->
  bits_value (Reference.codeword_bits vb)
  = (2 ^ Z.of_nat (List.length vb) - 2) * 2 ^ Z.of_nat (List.length vb)
    + bits_value vb.
Proof.
  intro Hk. unfold Reference.codeword_bits.
  replace (repeat true (List.length vb - 1) ++ false :: vb)%list
    with ((repeat true (List.length vb - 1) ++ [false]) ++ vb)%list
    by (rewrite <- app_assoc; reflexivity).
  rewrite bits_value_app, bits_value_ones_zero.
  replace (Z.of_nat (List.length vb - 1) + 1) with (Z.of_nat (List.length vb))
    by lia.
  reflexivity.
Qed.

(** [rle_encode] builds the codeword of the specification as long as
    its 2k bits fit the signed 32-bit results of [<<] and [|]. *)
Lemma rle_encode_bits (n : Z) (vb : list bool) :
  binary (n + 1) = true :: vb ->
  (1 <= List.length vb <= 15)%nat ->
  n + 1 = 2 ^ Z.of_nat (List.length vb) + bits_value vb ->
  rle_encode n = bits_value (Reference.codeword_bits vb).
Proof.
  intros Hb Hk Hx. rewrite codeword_bits_value by lia.
  pose proof (bits_value_bound vb) as Hv.
  set (k := Z.of_nat (List.length vb)) in *.
  assert (Hk1 : 1 <= k <= 15) by lia.
  assert (Hp : 2 <= 2 ^ k <= 2 ^ 15).
  { split.
    - change 2 with (2 ^ 1) at 1. apply Z.pow_le_mono_r; lia.
    - apply Z.pow_le_mono_r; lia. }
  unfold rle_encode. cbv zeta.
  assert (Hlen : JS.strlen (JS.toString2 (n + 1)) - 1 = k).
  { rewrite toString2_binary, Hb by lia. unfold JS.strlen.
    rewrite bits_string_length. cbn [List.length]. lia. }
  rewrite Hlen. unfold JS.pow2.
  replace (n + 1 - 2 ^ k) with (bits_value vb) by lia.
  replace (n + 1 - bits_value vb - 2) with (2 ^ k - 2) by lia.
  assert (Hlen2 : JS.strlen (JS.toString2 (2 ^ k - 2)) = k).
  { rewrite toString2_binary by lia.
    replace k with (Z.of_nat (List.length vb - 1) + 1) at 1 by lia.
    rewrite binary_ones_zero. unfold JS.strlen.
    rewrite bits_string_length, length_app, repeat_length.
    cbn [List.length]. lia. }
  rewrite Hlen2.
  unfold JS.shl, JS.bor.
  rewrite (Z.mod_small k (2 ^ 32)) by lia.
  rewrite (Z.mod_small k 32) by lia.
  rewrite (ToInt32_small (2 ^ k - 2)) by lia.
  rewrite !(ToInt32_small ((2 ^ k - 2) * 2 ^ k)) by nia.
  rewrite (ToInt32_small (bits_value vb)) by lia.
  apply lor_shifted; lia.
Qed.

Lemma reference_encode_bits (n : Z) (vb : list bool) :
  (1 <= List.length vb)%nat ->
  n + 1 = 2 ^ Z.of_nat (List.length vb) + bits_value vb ->
  Reference.encode n = bits_value (Reference.codeword_bits vb).
Proof.
  intros Hk Hx. rewrite codeword_bits_value by lia.
  pose proof (bits_value_bound vb) as Hv.
  unfold Reference.encode.
  assert (Hlog : Z.log2 (n + 1) = Z.of_nat (List.length vb)).
  { apply Z.log2_unique; [lia |].
    rewrite Z.pow_succ_r by lia. lia. }
  rewrite Hlog. lia.
Qed.

(** Up to n = 65534 (codewords of at most 30 bits) the encoder is the
    reference encoder. *)
Lemma rle_encode_reference_16bit (n : Z) :
  1 <= n <= 65534 -> rle_encode n = Reference.encode n.
Proof.
  intros [Hlo Hhi].
  destruct (successor_bits n Hlo) as (vb & Hb & Hk & Hx).
  pose proof (bits_value_bound vb) as Hv.
  assert (List.length vb <= 15)%nat
    by (apply (pow2_length_le_15 _ (n + 1)); lia).
  rewrite (rle_encode_bits n vb), (reference_encode_bits n vb); auto; lia.
Qed.

(** Decoding a codeword that starts with a 1 bit, whatever follows. *)
Lemma decode_codeword_bits (vb t : list bool) (e : Z) :
  (2 <= List.length vb)%nat ->
  2 ^ Z.of_nat (List.length vb) + bits_value vb <= 2 ^ 53 ->
  e = Reference.followed_by (bits_value (Reference.codeword_bits vb)) t ->
  rle_decode e
  = JS.Num (2 ^ Z.of_nat (List.length vb) + bits_value vb - 1).
Proof.
  intros Hk Hfit ->. unfold Reference.followed_by.
  rewrite <- bits_value_app.
  assert (Hshape : (Reference.codeword_bits vb ++ t)%list
            = (repeat true (List.length vb - 1) ++ false :: vb ++ t)%list).
  { unfold Reference.codeword_bits. rewrite <- app_assoc. reflexivity. }
  assert (Hhead : exists tl, (Reference.codeword_bits vb ++ t)%list = true :: tl).
  { unfold Reference.codeword_bits.
    destruct (List.length vb - 1)%nat as [|j] eqn:Hj; [lia |].
    cbn [repeat app]. eauto. }
  destruct Hhead as [tl Htl].
  assert (Hdec : Reference.decode (Reference.codeword_bits vb ++ t)
                 = 2 ^ Z.of_nat (List.length vb) + bits_value vb - 1).
  { unfold Reference.decode. rewrite Hshape.
    rewrite unary_prefix_ones, residual_ones by lia.
    rewrite bits_value_ones_zero.
    replace (Z.of_nat (List.length vb - 1) + 1) with (Z.of_nat (List.length vb))
      by lia.
    lia. }
  rewrite (rle_decode_string_exact _ (Reference.codeword_bits vb ++ t)).
  - now rewrite Hdec.
  - rewrite toString2_binary by (apply bits_value_bound).
    rewrite Htl, binary_bits_value. reflexivity.
  - rewrite Htl. discriminate.
  - rewrite Hdec. lia.
Qed.

(** Decoding undoes encoding up to n = 65534. *)
Lemma rle_roundtrip_16bit (n : Z) :
  1 <= n <= 65534 -> rle_decode (rle_encode n) = JS.Num n.
Proof.
  intros [Hlo Hhi].
  destruct (successor_bits n Hlo) as (vb & Hb & Hk & Hx).
  pose proof (bits_value_bound vb) as Hv.
  assert (Hk15 : (List.length vb <= 15)%nat)
    by (apply (pow2_length_le_15 _ (n + 1)); lia).
  destruct (Nat.eq_dec (List.length vb) 1) as [H1|H1].
  - rewrite H1 in Hx. change (2 ^ Z.of_nat 1) with 2 in Hx.
    rewrite H1 in Hv. change (2 ^ Z.of_nat 1) with 2 in Hv.
    assert (Hn : n = 1 \/ n = 2) by lia.
    destruct Hn as [-> | ->]; reflexivity.
  - rewrite (rle_encode_bits n vb) by (auto; lia).
    rewrite (decode_codeword_bits vb [] _); [f_equal; lia | lia | lia |].
    unfold Reference.followed_by. cbn. lia.
Qed.

End Encoder.

(* ================================================================== *)
(** ** The bitplane stub *)

Lemma bp_loop_skip (bitplane : string) (steps i : nat) (st : bp_locals) :
  bp_loop bitplane steps i st = st.
Proof.
  revert i st; induction steps as [|k IH]; intros i st; cbn [bp_loop].
  - reflexivity.
  - destruct (isRle st); apply IH.
Qed.

(* ================================================================== *)
(** ** The claims *)

Section Claims.

Import Bits.

(** C1. Round trip of the varint codec on [1, 100000]: it breaks at
    n = 65535, the first n whose codeword needs 32 bits.  There
    [rle_encode] leaves the 32-bit range of [<<] and returns -131072,
    which [rle_decode] reads as "-10" followed by "000", that is -1. *)
Theorem roundtrip_breaks_at_65535 :
  1 <= 65535 <= 100000
  /\ rle_encode 65535 = -131072
  /\ rle_decode (rle_encode 65535) = JS.Num (-1).
Proof. repeat split; try reflexivity; lia. Qed.

(** C2. The encoder against the reference definition l * 2^k + v for
    arbitrary magnitude: at n = 65535 the reference codeword is
    4294836224 while [rle_encode] returns -131072. *)
Theorem rle_encode_wraps_at_65535 :
  Reference.encode 65535 = 4294836224
  /\ rle_encode 65535 = -131072.
Proof. split; reflexivity. Qed.




(** C4. The known vectors: encode(1) = 0b00, encode(2) = 0b01,
    encode(45) = 0b1111001110,
    encode(63282) = 0b111111111111110111011100110011, and the two
    zero bits decode to 1. *)
Theorem known_vectors :
  rle_encode 1 = 0
  /\ rle_encode 2 = 1
  /\ rle_encode 45 = 974
  /\ rle_encode 63282 = 1073706803
  /\ rle_decode 0 = JS.Num 1
  /\ 974 = bits_value
       [true; true; true; true; false; false; true; true; true; false]
  /\ 1073706803 = bits_value
       [true; true; true; true; true; true; true; true; true; true;
        true; true; true; true; false;
        true; true; true; false; true; true; true; false; false; true;
        true; false; false; true; true].
Proof. repeat split; reflexivity. Qed.

(** C5, as stated, fails: the codeword of n = 1 is the two bits 00;
    followed by the bit 1 it is the number 1, whose text "1" has lost
    the codeword, and the decoder returns 2. *)
Lemma trailing_bit_after_short_codeword :
  Reference.followed_by (rle_encode 1) [true] = 1
  /\ rle_decode (Reference.followed_by (rle_encode 1) [true]) = JS.Num 2
  /\ ~ (forall (n : Z) (t : list bool), 1 <= n ->
        rle_decode (Reference.followed_by (rle_encode n) t) = JS.Num n).
Proof.
  split; [reflexivity | split; [reflexivity |]].
  intro H. specialize (H 1 [true] ltac:(lia)). discriminate H.
Qed.

(** C5, amended.  Trailing bits do not affect the decoded value when
    the codeword starts with a 1 bit: for 3 <= n <= 65534 and every
    bit suffix [t], decoding the codeword of n followed by [t] yields
    n. *)
Theorem trailing_bits_ignored (n : Z) (t : list bool) :
  3 <= n <= 65534 ->
  rle_decode (Reference.followed_by (rle_encode n) t) = JS.Num n.
Proof.
  intros [Hlo Hhi].
  destruct (successor_bits n ltac:(lia)) as (vb & Hb & Hk & Hx).
  pose proof (bits_value_bound vb) as Hv.
  assert (Hk15 : (List.length vb <= 15)%nat)
    by (apply (pow2_length_le_15 _ (n + 1)); lia).
  assert (Hk2 : (2 <= List.length vb)%nat).
  { destruct (Nat.eq_dec (List.length vb) 1) as [H1|H1]; [| lia].
    rewrite H1 in Hx, Hv. change (2 ^ Z.of_nat 1) with 2 in Hx, Hv. lia. }
  rewrite (rle_encode_bits n vb) by (auto; lia).
  rewrite (decode_codeword_bits vb t _ Hk2 ltac:(lia) eq_refl). f_equal. lia.
Qed.

(** The vector of line 136: 0b1111001110 followed by 111111. *)
Lemma trailing_bits_ignored_witness :
  3 <= 45 <= 65534
  /\ Reference.followed_by (rle_encode 45)
       [true; true; true; true; true; true] = 62399
  /\ rle_decode 62399 = JS.Num 45.
Proof.
  split; [lia | split; [reflexivity |]].
  apply (trailing_bits_ignored 45 [true; true; true; true; true; true]).
  lia.
Defined.




(** C7. One plane decoded to exactly totalPairs pair values: on the
    script's own sample, a well-formed stream of 31 pairs,
    [decompress_bp] returns undefined and has built nothing, where
    the claim wants the 62 bits of [decompressed_sample]. *)
Theorem decompress_bp_sample :
  decompress_bp compressed_sample = JS.Undefined
  /\ decompress_bp compressed_sample <> JS.Str decompressed_sample
  /\ decompressed (decompress_bp_locals compressed_sample) = ""
  /\ String.length decompressed_sample = (2 * 31)%nat.
Proof. repeat split; try reflexivity. discriminate. Qed.

(** C8. Dimension validation: a header byte whose height or width
    nibble is 0 or greater than 7 makes the decode fail with
    InvalidDimensions, and no grid is returned. *)
Theorem invalid_dimensions_rejected
    (grid : Type)
    (decode_planes : Z -> Z -> list Z -> SpriteDecoder.result grid)
    (header : Z) (rest : list Z) :
  0 <= header < 256 ->
  Z.shiftr header 4 = 0 \/ 7 < Z.shiftr header 4
  \/ Z.land header 15 = 0 \/ 7 < Z.land header 15 ->
  SpriteDecoder.decodeSprite grid decode_planes (header :: rest)
  = SpriteDecoder.Error SpriteDecoder.InvalidDimensions.
Proof.
  intros _ Hbad. unfold SpriteDecoder.decodeSprite, SpriteDecoder.read_dimensions.
  replace (SpriteDecoder.valid_dimension (Z.shiftr header 4)
           && SpriteDecoder.valid_dimension (Z.land header 15)) with false;
    [reflexivity |].
  symmetry. apply andb_false_iff. unfold SpriteDecoder.valid_dimension.
  destruct Hbad as [H | [H | [H | H]]];
    [left | left | right | right]; apply andb_false_iff;
    rewrite !Z.leb_gt; lia.
Qed.

Lemma invalid_dimensions_rejected_witness :
  SpriteDecoder.decodeSprite unit (fun _ _ _ => SpriteDecoder.Ok tt) [136; 0]
  = SpriteDecoder.Error SpriteDecoder.InvalidDimensions
  /\ SpriteDecoder.decodeSprite unit (fun _ _ _ => SpriteDecoder.Ok tt) [0]
     = SpriteDecoder.Error SpriteDecoder.InvalidDimensions.
Proof.
  split.
  - apply (invalid_dimensions_rejected unit _ 136 [0]);
      [lia | right; left; vm_compute; reflexivity].
  - apply (invalid_dimensions_rejected unit _ 0 []);
      [lia | left; reflexivity].
Defined.



(** C10. [decompress_bp] returns undefined for every input string:
    its loop changes nothing, [decompressed] is still empty when the
    loop is left, and no value is returned. *)
Theorem decompress_bp_undefined (bitplane : string) :
  decompress_bp bitplane = JS.Undefined
  /\ decompressed (decompress_bp_locals bitplane) = "".
Proof.
  split; [reflexivity |].
  unfold decompress_bp_locals. now rewrite bp_loop_skip.
Qed.

End Claims.

(* ================================================================== *)
(** ** Negative inputs of the decoder *)

Section NegativeInputs.

Import Bits.

Lemma charAt_cons (c : ascii) (s : string) (i : nat) :
  JS.charAt (String c s) (S i) = JS.charAt s i.
Proof. reflexivity. Qed.

Lemma prefix_loop_cons (c : ascii) (strN : string) (steps i : nat) (l : string) :
  prefix_loop (String c strN) steps (S i) l = prefix_loop strN steps i l.
Proof.
  revert i l; induction steps as [|k IH]; intros i l; cbn [prefix_loop].
  - reflexivity.
  - rewrite charAt_cons. destruct (JS.loose_eq _ 0); [reflexivity | apply IH].
Qed.

Lemma residual_loop_cons (c : ascii) (strN : string) (steps i : nat) (n : string) :
  residual_loop (String c strN) steps (S i) n = residual_loop strN steps i n.
Proof.
  revert i n; induction steps as [|k IH]; intros i n; cbn [residual_loop].
  - reflexivity.
  - rewrite charAt_cons. apply IH.
Qed.

Lemma digits_number_bits (sign : Z) (bs : list bool) :
  bs <> [] ->
  JS.digits_number sign (bits_string bs) = JS.Num (sign * bits_value bs).
Proof.
  destruct bs as [|b bs]; [congruence | intros _].
  unfold JS.digits_number. cbn [bits_string JS.parse_digits].
  replace (JS.binary_digit (digit b)) with (Some (Z.b2z b))
    by (destruct b; reflexivity).
  rewrite parse_digits_bits. reflexivity.
Qed.

(** On a negative input the sign is copied into [l]: the prefix is read
    behind it and the residual is one bit longer than the prefix. *)
Lemma rle_decode_negative (p : positive) :
  rle_decode (Zneg p)
  = JS.add
      (JS.add
         (JS.Num (- bits_value (unary_prefix (pos_bits p))))
         (JS.Num
            (bits_value
               (firstn (S (List.length (unary_prefix (pos_bits p))))
                  (skipn (List.length (unary_prefix (pos_bits p)))
                     (pos_bits p))))))
      (JS.Num 1).
Proof.
  unfold rle_decode. cbn [JS.toString2].
  rewrite pos_digits_bits, string_app_nil.
  set (bs := pos_bits p).
  assert (Hl : prefix_loop (String "-" (bits_string bs))
                 (String.length (String "-" (bits_string bs))) 0 ""
               = String "-" (bits_string (unary_prefix bs))).
  { cbn [String.length prefix_loop].
    change (JS.charAt (String "-" (bits_string bs)) 0) with "-".
    change (JS.loose_eq "-" 0) with false. cbv iota.
    rewrite prefix_loop_cons, bits_string_length.
    apply (prefix_loop_bits bs [] "-"). }
  rewrite Hl. cbn [String.length]. rewrite bits_string_length.
  set (k := List.length (unary_prefix bs)).
  replace (S k * 2 - S k)%nat with (S k) by lia.
  rewrite residual_loop_cons, residual_loop_bits. cbn [String.append].
  rewrite truthy_bits.
  assert (Hp : JS.parseInt2 (String "-" (bits_string (unary_prefix bs)))
               = JS.Num (- bits_value (unary_prefix bs))).
  { change (JS.parseInt2 (String "-" (bits_string (unary_prefix bs))))
      with (JS.digits_number (-1) (bits_string (unary_prefix bs))).
    rewrite digits_number_bits
      by (apply unary_prefix_nonempty, pos_bits_nonempty).
    f_equal; lia. }
  rewrite Hp.
  destruct (firstn (S k) (skipn k bs)) as [|r rs] eqn:Hr; cbn [negb].
  - reflexivity.
  - rewrite parseInt2_bits by congruence. reflexivity.
Qed.

Lemma bits_value_firstn_le (a : nat) (bs : list bool) :
  bits_value (firstn a bs) <= bits_value bs.
Proof.
  rewrite <- (firstn_skipn a bs) at 2. rewrite bits_value_app.
  pose proof (bits_value_bound (firstn a bs)).
  pose proof (bits_value_bound (skipn a bs)).
  assert (0 < 2 ^ Z.of_nat (List.length (skipn a bs)))
    by (apply Z.pow_pos_nonneg; lia).
  nia.
Qed.

Lemma bits_value_skipn_le (a : nat) (bs : list bool) :
  bits_value (skipn a bs) <= bits_value bs.
Proof.
  rewrite <- (firstn_skipn a bs) at 2. rewrite bits_value_app.
  pose proof (bits_value_bound (firstn a bs)).
  pose proof (bits_value_bound (skipn a bs)).
  assert (0 < 2 ^ Z.of_nat (List.length (skipn a bs)))
    by (apply Z.pow_pos_nonneg; lia).
  nia.
Qed.

Lemma pos_bits_split (p : positive) (vb : list bool) :
  pos_bits p = true :: vb ->
  Z.pos p = 2 ^ Z.of_nat (List.length vb) + bits_value vb
  /\ Z.log2 (Z.pos p) = Z.of_nat (List.length vb).
Proof.
  intro Hvb.
  assert (Hval : Z.pos p = 2 ^ Z.of_nat (List.length vb) + bits_value vb).
  { rewrite <- (bits_value_pos_bits p), Hvb.
    change (true :: vb) with ([true] ++ vb)%list.
    rewrite bits_value_app. change (bits_value [true]) with 1. lia. }
  split; [exact Hval |].
  pose proof (bits_value_bound vb).
  apply Z.log2_unique; [lia |]. rewrite Z.pow_succ_r by lia. lia.
Qed.

(** Down to -2^53 the sum is exact, and the value decoded from a
    negative input is below the magnitude of the input without its
    leading bit. *)
Lemma rle_decode_negative_bound (p : positive) :
  Z.pos p <= 2 ^ 53 ->
  exists d : Z,
    rle_decode (Zneg p) = JS.Num d
    /\ d = - bits_value (unary_prefix (pos_bits p))
           + bits_value
               (firstn (S (List.length (unary_prefix (pos_bits p))))
                  (skipn (List.length (unary_prefix (pos_bits p)))
                     (pos_bits p)))
           + 1
    /\ d <= Z.pos p - 2 ^ Z.log2 (Z.pos p).
Proof.
  intro Hm.
  destruct (pos_bits_head p) as [vb Hvb].
  destruct (pos_bits_split p vb Hvb) as [Hval Hlog].
  rewrite rle_decode_negative.
  assert (HL : 1 <= bits_value (unary_prefix (pos_bits p)) <= Z.pos p).
  { split.
    - rewrite Hvb. cbn [unary_prefix].
      change (true :: unary_prefix vb) with ([true] ++ unary_prefix vb)%list.
      rewrite bits_value_app. change (bits_value [true]) with 1.
      pose proof (bits_value_bound (unary_prefix vb)).
      assert (0 < 2 ^ Z.of_nat (List.length (unary_prefix vb)))
        by (apply Z.pow_pos_nonneg; lia).
      lia.
    - pose proof (bits_value_firstn_le
                    (List.length (unary_prefix (pos_bits p))) (pos_bits p)) as H.
      rewrite <- unary_prefix_firstn, bits_value_pos_bits in H. exact H. }
  assert (HN : 0 <= bits_value
                      (firstn (S (List.length (unary_prefix (pos_bits p))))
                         (skipn (List.length (unary_prefix (pos_bits p)))
                            (pos_bits p)))
               <= Z.pos p - 2 ^ Z.log2 (Z.pos p)).
  { rewrite Hlog, Hvb. cbn [unary_prefix List.length skipn].
    pose proof (bits_value_bound
                  (firstn (S (S (List.length (unary_prefix vb))))
                     (skipn (List.length (unary_prefix vb)) vb))).
    pose proof (bits_value_firstn_le (S (S (List.length (unary_prefix vb))))
                  (skipn (List.length (unary_prefix vb)) vb)).
    pose proof (bits_value_skipn_le (List.length (unary_prefix vb)) vb).
    lia. }
  assert (0 < 2 ^ Z.log2 (Z.pos p))
    by (apply Z.pow_pos_nonneg; [lia | apply Z.log2_nonneg]).
  eexists. split; [| split; [reflexivity | lia]].
  rewrite add_exact by lia. rewrite add_exact by lia. reflexivity.
Qed.

End NegativeInputs.

(* ================================================================== *)
(** ** The range of the codec *)

Section CodecRange.

Import Bits.

(** [rle_encode] down to its two bit operations. *)
Lemma rle_encode_shift (n : Z) (vb : list bool) :
  binary (n + 1) = true :: vb ->
  (1 <= List.length vb)%nat ->
  n + 1 = 2 ^ Z.of_nat (List.length vb) + bits_value vb ->
  rle_encode n
  = JS.bor (JS.shl (2 ^ Z.of_nat (List.length vb) - 2)
              (Z.of_nat (List.length vb)))
      (bits_value vb).
Proof.
  intros Hb Hk Hx.
  pose proof (bits_value_bound vb) as Hv.
  set (k := Z.of_nat (List.length vb)) in *.
  assert (Hp : 2 <= 2 ^ k).
  { change 2 with (2 ^ 1) at 1. apply Z.pow_le_mono_r; lia. }
  unfold rle_encode. cbv zeta.
  assert (Hlen : JS.strlen (JS.toString2 (n + 1)) - 1 = k).
  { rewrite toString2_binary, Hb by lia. unfold JS.strlen.
    rewrite bits_string_length. cbn [List.length]. lia. }
  rewrite Hlen. unfold JS.pow2.
  replace (n + 1 - 2 ^ k) with (bits_value vb) by lia.
  replace (n + 1 - bits_value vb - 2) with (2 ^ k - 2) by lia.
  assert (Hlen2 : JS.strlen (JS.toString2 (2 ^ k - 2)) = k).
  { rewrite toString2_binary by lia.
    replace k with (Z.of_nat (List.length vb - 1) + 1) at 1 by lia.
    rewrite binary_ones_zero. unfold JS.strlen.
    rewrite bits_string_length, length_app, repeat_length.
    cbn [List.length]. lia. }
  rewrite Hlen2. reflexivity.
Qed.

Lemma ToInt32_negative (z : Z) : - 2 ^ 31 <= z < 0 -> JS.ToInt32 z = z.
Proof.
  intro H. unfold JS.ToInt32.
  replace (z mod 2 ^ 32) with (z + 2 ^ 32).
  - destruct (2 ^ 31 <=? z + 2 ^ 32) eqn:E; [lia | apply Z.leb_gt in E; lia].
  - apply Z.mod_unique with (q := -1); lia.
Qed.

(** The product [l * 2^k] leaves 32 bits from k = 16 on: only
    [- 2^(k+1)] is left of it. *)
Lemma ToInt32_codeword_high (k : Z) :
  16 <= k <= 30 -> JS.ToInt32 ((2 ^ k - 2) * 2 ^ k) = - (2 * 2 ^ k).
Proof.
  intro Hk.
  assert (Hsq : 2 ^ k * 2 ^ k = 2 ^ 32 * 2 ^ (2 * k - 32)).
  { rewrite <- !Z.pow_add_r by lia. f_equal. lia. }
  assert (Hq : 0 < 2 ^ (2 * k - 32)) by (apply Z.pow_pos_nonneg; lia).
  assert (Hlo : 2 ^ 16 <= 2 ^ k) by (apply Z.pow_le_mono_r; lia).
  assert (Hhi : 2 ^ k <= 2 ^ 30) by (apply Z.pow_le_mono_r; lia).
  unfold JS.ToInt32.
  replace (((2 ^ k - 2) * 2 ^ k) mod 2 ^ 32) with (2 ^ 32 - 2 * 2 ^ k).
  - destruct (2 ^ 31 <=? 2 ^ 32 - 2 * 2 ^ k) eqn:E;
      [lia | apply Z.leb_gt in E; lia].
  - apply Z.mod_unique with (q := 2 ^ (2 * k - 32) - 1); lia.
Qed.

Lemma successor_log2 (n : Z) (vb : list bool) :
  n + 1 = 2 ^ Z.of_nat (List.length vb) + bits_value vb ->
  Z.log2 (n + 1) = Z.of_nat (List.length vb).
Proof.
  intro Hx. pose proof (bits_value_bound vb).
  assert (0 < 2 ^ Z.of_nat (List.length vb)) by (apply Z.pow_pos_nonneg; lia).
  apply Z.log2_unique; [lia |]. rewrite Z.pow_succ_r by lia. lia.
Qed.

Lemma pow2_length_ge_16 (k : nat) (x : Z) :
  2 ^ 16 <= x -> x < 2 * 2 ^ Z.of_nat k -> (16 <= k)%nat.
Proof.
  intros Hlo Hhi.
  destruct (Nat.le_gt_cases 16 k) as [H|H]; [exact H | exfalso].
  assert (2 ^ Z.of_nat k <= 2 ^ 15) by (apply Z.pow_le_mono_r; lia). lia.
Qed.

Lemma pow2_length_le_30 (k : nat) (x : Z) :
  2 ^ Z.of_nat k <= x -> x < 2 ^ 31 -> (k <= 30)%nat.
Proof.
  intros Hlo Hhi.
  destruct (Nat.le_gt_cases k 30) as [H|H]; [exact H | exfalso].
  assert (2 ^ 31 <= 2 ^ Z.of_nat k) by (apply Z.pow_le_mono_r; lia). lia.
Qed.

(** From n = 65535 up to 2^31 - 2 the codeword would need 32 to 60
    bits: [<<] keeps [- 2^(k+1)] of [l * 2^k], the result
    n + 1 - 3 * 2^k is negative, and the decoder does not give n back. *)
Theorem rle_encode_overflow (n : Z) :
  65535 <= n <= 2147483646 ->
  rle_encode n = n + 1 - 3 * 2 ^ Z.log2 (n + 1)
  /\ rle_encode n < 0
  /\ rle_decode (rle_encode n) <> JS.Num n.
Proof.
  intros [Hlo Hhi].
  destruct (successor_bits n ltac:(lia)) as (vb & Hb & Hk & Hx).
  pose proof (bits_value_bound vb) as Hv.
  rewrite (successor_log2 n vb Hx).
  assert (Hk16 : (16 <= List.length vb)%nat)
    by (apply (pow2_length_ge_16 _ (n + 1)); lia).
  assert (Hk30 : (List.length vb <= 30)%nat)
    by (apply (pow2_length_le_30 _ (n + 1)); lia).
  assert (Henc : rle_encode n = bits_value vb - 2 * 2 ^ Z.of_nat (List.length vb)).
  { rewrite (rle_encode_shift n vb Hb Hk Hx).
    set (k := Z.of_nat (List.length vb)) in *.
    assert (2 ^ 16 <= 2 ^ k) by (apply Z.pow_le_mono_r; lia).
    assert (2 ^ k <= 2 ^ 30) by (apply Z.pow_le_mono_r; lia).
    unfold JS.shl, JS.bor.
    rewrite (Z.mod_small k (2 ^ 32)) by lia.
    rewrite (Z.mod_small k 32) by lia.
    rewrite (ToInt32_small (2 ^ k - 2)) by lia.
    rewrite (ToInt32_codeword_high k) by lia.
    rewrite (ToInt32_negative (- (2 * 2 ^ k))) by lia.
    rewrite (ToInt32_small (bits_value vb)) by lia.
    replace (- (2 * 2 ^ k)) with (-2 * 2 ^ k) by lia.
    rewrite lor_shifted by lia. lia. }
  split; [lia |]. split; [lia |].
  rewrite Henc.
  set (k := Z.of_nat (List.length vb)) in *.
  destruct (bits_value vb - 2 * 2 ^ k) as [|p|p] eqn:He; try lia.
  assert (Hp30 : 2 ^ k <= 2 ^ 30) by (apply Z.pow_le_mono_r; lia).
  destruct (rle_decode_negative_bound p ltac:(lia)) as (d & Hd & _ & Hbound).
  rewrite Hd. intro Heq. injection Heq as Heq. subst d.
  destruct (Z.eq_dec (bits_value vb) 0) as [Hv0|Hv0].
  - assert (Hp : Z.pos p = 2 ^ (k + 1)) by (rewrite Z.pow_add_r; lia).
    rewrite Hp, Z.log2_pow2 in Hbound by lia. lia.
  - pose proof (Z.log2_spec (Z.pos p) ltac:(lia)) as [Hl1 Hl2].
    rewrite Z.pow_succ_r in Hl2 by apply Z.log2_nonneg. lia.
Qed.

Lemma rle_encode_overflow_witness :
  rle_encode 100000 = 100000 + 1 - 3 * 2 ^ Z.log2 (100000 + 1)
  /\ rle_encode 100000 < 0
  /\ rle_decode (rle_encode 100000) <> JS.Num 100000.
Proof. apply (rle_encode_overflow 100000). lia. Defined.

(** The encoder preserves the order of the run lengths it supports, and
    its codewords there are non-negative numbers of at most 30 bits. *)
Theorem rle_encode_increasing (n m : Z) :
  1 <= n -> n < m -> m <= 65534 ->
  0 <= rle_encode n /\ rle_encode n < rle_encode m /\ rle_encode m < 2 ^ 30.
Proof.
  intros Hn Hnm Hm.
  destruct (successor_bits n Hn) as (vb & Hb & Hk & Hx).
  destruct (successor_bits m ltac:(lia)) as (wb & Hb' & Hk' & Hx').
  pose proof (bits_value_bound vb) as Hv.
  pose proof (bits_value_bound wb) as Hw.
  assert (Hk15 : (List.length vb <= 15)%nat)
    by (apply (pow2_length_le_15 _ (n + 1)); lia).
  assert (Hk15' : (List.length wb <= 15)%nat)
    by (apply (pow2_length_le_15 _ (m + 1)); lia).
  rewrite (rle_encode_bits n vb), (rle_encode_bits m wb) by (auto; lia).
  rewrite !codeword_bits_value by lia.
  set (P := 2 ^ Z.of_nat (List.length vb)) in *.
  set (Q := 2 ^ Z.of_nat (List.length wb)) in *.
  assert (HP : 2 <= P).
  { change 2 with (2 ^ 1). apply Z.pow_le_mono_r; lia. }
  assert (HQ : Q <= 2 ^ 15) by (apply Z.pow_le_mono_r; lia).
  assert (Hcmp : P = Q \/ 2 * P <= Q).
  { destruct (Nat.lt_trichotomy (List.length vb) (List.length wb))
      as [Hlt | [Heq | Hgt]].
    - right. unfold P, Q.
      rewrite <- (Z.pow_succ_r 2 (Z.of_nat (List.length vb))) by lia.
      apply Z.pow_le_mono_r; lia.
    - left. unfold P, Q. now rewrite Heq.
    - exfalso.
      assert (2 * Q <= P).
      { unfold P, Q.
        rewrite <- (Z.pow_succ_r 2 (Z.of_nat (List.length wb))) by lia.
        apply Z.pow_le_mono_r; lia. }
      lia. }
  repeat split; [nia | | nia].
  destruct Hcmp as [Heq | Hlt]; [rewrite <- Heq in *; nia | nia].
Qed.

Lemma rle_encode_increasing_witness :
  0 <= rle_encode 45 /\ rle_encode 45 < rle_encode 46 /\ rle_encode 46 < 2 ^ 30.
Proof. apply (rle_encode_increasing 45 46); lia. Defined.

(** The text of a codeword: for 3 <= n <= 65534 it is 2k characters
    long, k = the bit length of n + 1 minus one, and it starts with k-1
    ones and a zero. *)
Theorem rle_encode_text (n : Z) :
  3 <= n <= 65534 ->
  exists vb : list bool,
    Z.of_nat (List.length vb) = Z.log2 (n + 1)
    /\ JS.toString2 (rle_encode n)
       = bits_string (repeat true (List.length vb - 1) ++ false :: vb)
    /\ JS.strlen (JS.toString2 (rle_encode n)) = 2 * Z.log2 (n + 1)
    /\ bits_value vb = n + 1 - 2 ^ Z.log2 (n + 1).
Proof.
  intros [Hlo Hhi].
  destruct (successor_bits n ltac:(lia)) as (vb & Hb & Hk & Hx).
  pose proof (bits_value_bound vb) as Hv.
  pose proof (successor_log2 n vb Hx) as Hlog.
  assert (Hk15 : (List.length vb <= 15)%nat)
    by (apply (pow2_length_le_15 _ (n + 1)); lia).
  assert (Hk2 : (2 <= List.length vb)%nat).
  { destruct (Nat.eq_dec (List.length vb) 1) as [H1|H1]; [| lia].
    rewrite H1 in Hx, Hv. change (2 ^ Z.of_nat 1) with 2 in Hx, Hv. lia. }
  exists vb.
  assert (Htext : JS.toString2 (rle_encode n)
                  = bits_string (Reference.codeword_bits vb)).
  { rewrite (rle_encode_bits n vb) by (auto; lia).
    rewrite toString2_binary by apply bits_value_bound.
    unfold Reference.codeword_bits.
    destruct (List.length vb - 1)%nat as [|j] eqn:Hj; [lia |].
    cbn [repeat app]. now rewrite binary_bits_value. }
  split; [now rewrite Hlog |]. split; [exact Htext |]. split.
  - rewrite Htext. unfold JS.strlen, Reference.codeword_bits.
    rewrite bits_string_length, length_app, repeat_length.
    cbn [List.length]. lia.
  - rewrite Hlog. lia.
Qed.

Lemma rle_encode_text_witness :
  exists vb : list bool,
    Z.of_nat (List.length vb) = Z.log2 (45 + 1)
    /\ JS.toString2 (rle_encode 45)
       = bits_string (repeat true (List.length vb - 1) ++ false :: vb)
    /\ JS.strlen (JS.toString2 (rle_encode 45)) = 2 * Z.log2 (45 + 1)
    /\ bits_value vb = 45 + 1 - 2 ^ Z.log2 (45 + 1).
Proof. apply (rle_encode_text 45). lia. Defined.

(** The decoder is not bound to 32 bits: it reads the codeword of the
    specification of every n >= 3 that a number holds exactly, with any
    bits behind it, and those of 1 and 2 when nothing follows. *)
Theorem rle_decode_wide_codeword (n : Z) (t : list bool) :
  1 <= n -> (n < 3 -> t = []) ->
  Reference.followed_by (Reference.encode n) t < 2 ^ 53 ->
  rle_decode (Reference.followed_by (Reference.encode n) t) = JS.Num n.
Proof.
  intros Hn Ht Hfit.
  destruct (Z.lt_ge_cases n 3) as [Hsmall | Hbig].
  - rewrite (Ht Hsmall).
    assert (Hcases : n = 1 \/ n = 2) by lia.
    destruct Hcases as [-> | ->]; reflexivity.
  - destruct (successor_bits n Hn) as (vb & Hb & Hk & Hx).
    pose proof (bits_value_bound vb) as Hv.
    assert (Hk2 : (2 <= List.length vb)%nat).
    { destruct (Nat.eq_dec (List.length vb) 1) as [H1|H1]; [| lia].
      rewrite H1 in Hx, Hv. change (2 ^ Z.of_nat 1) with 2 in Hx, Hv. lia. }
    rewrite (reference_encode_bits n vb Hk Hx) in *.
    assert (Hsmall : 2 ^ Z.of_nat (List.length vb) + bits_value vb <= 2 ^ 53).
    { unfold Reference.followed_by in Hfit.
      rewrite codeword_bits_value in Hfit by lia.
      pose proof (bits_value_bound t).
      assert (0 < 2 ^ Z.of_nat (List.length t))
        by (apply Z.pow_pos_nonneg; lia).
      assert (2 ^ 2 <= 2 ^ Z.of_nat (List.length vb))
        by (apply Z.pow_le_mono_r; lia).
      nia. }
    rewrite (decode_codeword_bits vb t _ Hk2 Hsmall eq_refl). f_equal. lia.
Qed.

Lemma rle_decode_wide_codeword_witness :
  Reference.followed_by (Reference.encode 65535) [true; false] = 17179344898
  /\ rle_decode 17179344898 = JS.Num 65535.
Proof.
  split; [reflexivity |].
  apply (rle_decode_wide_codeword 65535 [true; false]);
    [lia | lia | vm_compute; reflexivity].
Defined.


(** Loaded, the script passes its eight assertions: whatever the
    console held, only the line of the final [console.log] is added. *)
Theorem script_passes (console : list console_event) :
  script console = (console ++ [Logged "finished script"])%list.
Proof. reflexivity. Qed.

End CodecRange.

(* ================================================================== *)
(** ** Instances *)

Lemma rle_roundtrip_16bit_witness :
  rle_decode (rle_encode 63282) = JS.Num 63282.
Proof. apply (rle_roundtrip_16bit 63282). lia. Defined.

Lemma rle_encode_reference_16bit_witness :
  rle_encode 65534 = Reference.encode 65534.
Proof. apply (rle_encode_reference_16bit 65534). lia. Defined.
